(** * linkml_runtime.utils.dataclass_patch

    A shallow embedding of [dataclass], its inner [wrap] and
    [is_direct_dataclass] from
    [src/linkml_runtime/utils/dataclass_patch.py], together with the part of
    the Python object model these functions touch:

    - class objects, with the attribute [__declared_dataclasses__] of their
      own [__dict__] and their method resolution order;
    - set objects, held by reference, so that a set found through an inherited
      attribute is the very object the ancestor holds;
    - [getattr] on a class, which walks the resolution order.

    [dataclasses._process_class] belongs to the standard library, not to this
    module: it is a variable of the development and every assumption made on
    it is a named hypothesis of the theorem that needs it. *)

From stdpp Require Import base option list gmap sets fin_maps strings.

(** ** Data model *)

(** [id(cls)]: the identity of a class object, an integer.  Two classes that
    are alive together have different identities; the identity of a class
    that was collected can be given to a class made later (see [collect]). *)
Abbreviation ClassId := positive.

(** The address of a [set] object. *)
Abbreviation SetRef := positive.

(** The keyword arguments of [dataclass] (line 48-50), in source order. *)
Record Options := mkOptions {
  opt_init : bool;
  opt_repr : bool;
  opt_eq : bool;
  opt_order : bool;
  opt_unsafe_hash : bool;
  opt_frozen : bool;
  opt_match_args : bool;
  opt_kw_only : bool;
  opt_slots : bool;
  opt_weakref_slot : bool
}.

(** The defaults of the signature: [init=True, repr=True, eq=True,
    order=False, unsafe_hash=False, frozen=False, match_args=True,
    kw_only=False, slots=False, weakref_slot=False]. *)
Definition default_options : Options :=
  mkOptions true true true false false false true false false false.

(** The positional arguments that follow [cls] in the call of
    [dataclasses._process_class] at line 75-76:
    [init, repr, eq, order, unsafe_hash, frozen, match_args, kw_only, slots]. *)
Record ProcessArgs := mkProcessArgs {
  arg_init : bool;
  arg_repr : bool;
  arg_eq : bool;
  arg_order : bool;
  arg_unsafe_hash : bool;
  arg_frozen : bool;
  arg_match_args : bool;
  arg_kw_only : bool;
  arg_slots : bool
}.

Global Instance Options_eq_dec : EqDecision Options.
Proof. solve_decision. Defined.

Global Instance ProcessArgs_eq_dec : EqDecision ProcessArgs.
Proof. solve_decision. Defined.

(** A class object, as far as this module looks at it: [ancestors] is
    [cls.__mro__[1:]], the resolution order after the class itself;
    [declared] is the entry [__declared_dataclasses__] of the class's own
    [__dict__], a reference to a set object when present. *)
Record ClassObj := mkClass {
  ancestors : list ClassId;
  declared : option SetRef
}.

Global Instance ClassObj_eq_dec : EqDecision ClassObj.
Proof. solve_decision. Defined.

(** The heap: class objects by identity, set objects by reference. *)
Record Heap := mkHeap {
  classes : gmap ClassId ClassObj;
  sets : gmap SetRef (gset ClassId)
}.

Global Instance Heap_eq_dec : EqDecision Heap.
Proof. solve_decision. Defined.

(** Exceptions.  The module raises none itself; these are the conditions the
    specification names for the collaborator, plus the errors of the class
    statement. *)
Inductive exn :=
  | InvalidOptionCombination
  | SynthesisError
  | TypeError
  | NameError.

Global Instance exn_eq_dec : EqDecision exn.
Proof. solve_decision. Defined.

(** What a call gives back: a class object, or a raised exception. *)
Inductive outcome :=
  | Return (cls : ClassId)
  | Raise (e : exn).

Global Instance outcome_eq_dec : EqDecision outcome.
Proof. solve_decision. Defined.

(** [dataclasses._process_class]: given the class, the forwarded arguments and
    the heap, it returns or raises, and leaves a heap. *)
Definition Synthesizer := ClassId → ProcessArgs → Heap → outcome * Heap.

(** The state of a run: the heap, and the log of the calls of
    [_process_class] made so far (ghost state: the code keeps no such log, it
    records what the code did). *)
Record World := mkWorld {
  heap : Heap;
  calls : list (ClassId * ProcessArgs)
}.

Global Instance World_eq_dec : EqDecision World.
Proof. solve_decision. Defined.

(** ** Attribute access *)

(** [cls.__dict__.get('__declared_dataclasses__')] *)
Definition own_declared (h : Heap) (c : ClassId) : option SetRef :=
  classes h !! c ≫= declared.

(** The first class of a resolution order whose own dictionary has the
    attribute. *)
Fixpoint lookup_mro (h : Heap) (order : list ClassId) : option SetRef :=
  match order with
  | [] => None
  | d :: order' =>
      match own_declared h d with
      | Some r => Some r
      | None => lookup_mro h order'
      end
  end.

(** [cls.__mro__] *)
Definition mro (h : Heap) (cls : ClassId) : list ClassId :=
  match classes h !! cls with
  | Some o => cls :: ancestors o
  | None => []
  end.

(** [getattr(cls, _DECLARED_DATA_CLASSES, None)]: the class, then its
    ancestors, in resolution order.  Only this module writes the attribute,
    so where it is present it holds a set, never [None]; metaclasses do not
    define it. *)
Definition getattr_declared (h : Heap) (cls : ClassId) : option SetRef :=
  lookup_mro h (mro h cls).

(** [setattr(cls, _DECLARED_DATA_CLASSES, seen)] writes the class's own
    dictionary. *)
Definition setattr_declared (cls : ClassId) (seen : SetRef) (h : Heap) : Heap :=
  mkHeap (alter (λ o, mkClass (ancestors o) (Some seen)) cls (classes h))
         (sets h).

(** ** Set objects *)

(** The elements of the set object at [r]. *)
Definition set_contents (h : Heap) (r : SetRef) : gset ClassId :=
  default ∅ (sets h !! r).

(** [set()]: a new, empty set object at an unused address. *)
Definition new_set (h : Heap) : SetRef * Heap :=
  let r := fresh (dom (sets h)) in
  (r, mkHeap (classes h) (<[r := ∅]> (sets h))).

(** [seen.add(x)]: the set object is updated in place, every holder of the
    reference sees the new element. *)
Definition set_add (seen : SetRef) (x : ClassId) (h : Heap) : Heap :=
  mkHeap (classes h) (<[seen := {[x]} ∪ set_contents h seen]> (sets h)).

(** [x in seen] *)
Definition set_mem (h : Heap) (seen : SetRef) (x : ClassId) : bool :=
  bool_decide (x ∈ set_contents h seen).

(** ** The patch *)

(** The arguments of the call at line 75-76. [weakref_slot] is a parameter
    of [dataclass] and is not among them. *)
Definition process_args (o : Options) : ProcessArgs :=
  mkProcessArgs (opt_init o) (opt_repr o) (opt_eq o) (opt_order o)
                (opt_unsafe_hash o) (opt_frozen o) (opt_match_args o)
                (opt_kw_only o) (opt_slots o).

(** Lines 67-73 of [wrap]: find [seen], or attach a new empty set; [None]
    is the early [return cls] of line 73, [Some (seen, h)] goes on to line
    74 with the heap as it then is.
<<
    seen = getattr(cls, _DECLARED_DATA_CLASSES, None)
    if seen is None:
        seen = set()
        setattr(cls, _DECLARED_DATA_CLASSES, seen)
    elif id(cls) in seen:
        return cls
>> *)
Definition wrap_seen (cls : ClassId) (h : Heap) : option (SetRef * Heap) :=
  match getattr_declared h cls with
  | None =>
      let '(seen, h1) := new_set h in
      Some (seen, setattr_declared cls seen h1)
  | Some seen =>
      if set_mem h seen cls then None else Some (seen, h)
  end.

(** Lines 67-74: the heap [_process_class] is called in, when it is called. *)
Definition wrap_record (cls : ClassId) (h : Heap) : option Heap :=
  match wrap_seen cls h with
  | None => None
  | Some (seen, h1) => Some (set_add seen cls h1)
  end.

Section Patch.

Variable process_class : Synthesizer.

(** [wrap], lines 66-76. *)
Definition wrap (o : Options) (cls : ClassId) (w : World) : outcome * World :=
  match wrap_record cls (heap w) with
  | None => (Return cls, w)
  | Some h2 =>
      let args := process_args o in
      let '(res, h3) := process_class cls args h2 in
      (res, mkWorld h3 (calls w ++ [(cls, args)]))
  end.

(** [dataclass], lines 48-84.  Called with keywords only ([cls is None]) it
    returns the decorator [wrap]; called with a class it returns
    [wrap(cls)]. *)
Definition dataclass (cls : option ClassId) (o : Options)
  : (ClassId → World → outcome * World) + (World → outcome * World) :=
  match cls with
  | None => inl (wrap o)
  | Some c => inr (wrap o c)
  end.

(** [is_direct_dataclass], lines 87-89.  The default [set()] of the
    [getattr] is a temporary that nothing refers to; the function writes
    neither a class nor a set, so the world comes back as it went in. *)
Definition is_direct_dataclass (cls : ClassId) (w : World) : bool * World :=
  let seen :=
    match getattr_declared (heap w) cls with
    | Some r => set_contents (heap w) r
    | None => ∅
    end in
  (bool_decide (cls ∈ seen), w).

End Patch.

(** ** The class statement *)

(** C3 linearization, by which [type.__new__] computes [__mro__] from the
    resolution orders of the bases and the list of bases.  The next class is
    the first head that occurs in no tail. *)
Definition c3_good (x : ClassId) (seqs : list (list ClassId)) : bool :=
  forallb (λ s, bool_decide (x ∉ tail s)) seqs.

Definition c3_candidate (seqs : list (list ClassId)) : option ClassId :=
  head (List.filter (λ x, c3_good x seqs) (omap head seqs)).

Definition c3_drop (x : ClassId) (s : list ClassId) : list ClassId :=
  match s with
  | y :: s' => if decide (x = y) then s' else s
  | [] => []
  end.

Definition c3_nonempty (s : list ClassId) : bool :=
  match s with [] => false | _ => true end.

Fixpoint c3_merge (fuel : nat) (seqs : list (list ClassId))
  : option (list ClassId) :=
  match List.filter c3_nonempty seqs with
  | [] => Some []
  | seqs' =>
      match fuel with
      | O => None
      | S fuel' =>
          match c3_candidate seqs' with
          | None => None
          | Some x => cons x <$> c3_merge fuel' (c3_drop x <$> seqs')
          end
      end
  end.

Definition linearize (h : Heap) (bases : list ClassId) : option (list ClassId) :=
  let seqs := (mro h <$> bases) ++ [bases] in
  c3_merge (length (concat seqs)) seqs.

(** [class D(B1, ..., Bn): ...] with a body that does not mention
    [__declared_dataclasses__]: a new class object, whose own dictionary has
    no such entry.  [object] is left out of every resolution order, it never
    carries the attribute.  A base that is not a class is a [NameError], an
    inconsistent hierarchy a [TypeError]. *)
Definition class_def (bases : list ClassId) (h : Heap) : outcome * Heap :=
  if forallb (λ b, bool_decide (b ∈ dom (classes h))) bases then
    match linearize h bases with
    | Some order =>
        let cls := fresh (dom (classes h)) in
        (Return cls, mkHeap (<[cls := mkClass order None]> (classes h)) (sets h))
    | None => (Raise TypeError, h)
    end
  else (Raise NameError, h).

(** ** Programs: sequences of class statements and calls *)

(** The statements of [op] keep every class alive; [stmt], further down,
    adds the collection of a class. *)

Inductive op :=
  | ClassDef (bases : list ClassId)
  | Decorate (o : Options) (cls : ClassId)
  | IsDirect (cls : ClassId).

Inductive value :=
  | VClass (cls : ClassId)
  | VBool (b : bool)
  | VRaise (e : exn).

Global Instance op_eq_dec : EqDecision op.
Proof. solve_decision. Defined.

Global Instance value_eq_dec : EqDecision value.
Proof. solve_decision. Defined.

Definition value_of (r : outcome) : value :=
  match r with
  | Return c => VClass c
  | Raise e => VRaise e
  end.

(** A call that only observes. *)
Definition observer (p : op) : bool :=
  match p with
  | IsDirect _ => true
  | _ => false
  end.

Section Programs.

Variable process_class : Synthesizer.

(** One statement.  A name that denotes no class is a [NameError] before
    anything is called. *)
Definition step (p : op) (w : World) : value * World :=
  match p with
  | ClassDef bases =>
      let '(r, h) := class_def bases (heap w) in
      (value_of r, mkWorld h (calls w))
  | Decorate o cls =>
      if bool_decide (cls ∈ dom (classes (heap w))) then
        let '(r, w') := wrap process_class o cls w in (value_of r, w')
      else (VRaise NameError, w)
  | IsDirect cls =>
      if bool_decide (cls ∈ dom (classes (heap w))) then
        let '(b, w') := is_direct_dataclass cls w in (VBool b, w')
      else (VRaise NameError, w)
  end.

(** A program, statement after statement; an exception is caught by the
    caller and the program goes on.  The trace pairs every statement with
    what it gave. *)
Fixpoint run (prog : list op) (w : World) : list (op * value) * World :=
  match prog with
  | [] => ([], w)
  | p :: prog' =>
      let '(v, w1) := step p w in
      let '(tr, w2) := run prog' w1 in
      ((p, v) :: tr, w2)
  end.

End Programs.

Definition empty_world : World := mkWorld (mkHeap ∅ ∅) [].

(** ** Synthesizers *)

(** Generates the methods on the class it was given and returns that very
    class. *)
Definition process_in_place : Synthesizer :=
  λ cls _ h, (Return cls, h).

(** Raises [e], whatever it is given. *)
Definition process_raising (e : exn) : Synthesizer :=
  λ _ _ h, (Raise e, h).

(** Rejects [unsafe_hash] without [eq], as section 4.2 of the specification
    has it rejected; otherwise works in place. *)
Definition process_checked : Synthesizer :=
  λ cls a h,
    if arg_unsafe_hash a && negb (arg_eq a)
    then (Raise InvalidOptionCombination, h)
    else (Return cls, h).

(** With [slots] the standard library cannot add [__slots__] to an existing
    class: [_add_slots] builds a new class from the same bases and a copy of
    the class dictionary, [type(cls)(cls.__name__, cls.__bases__, cls_dict)],
    and returns it.  The copy holds the same references, so the new class
    has the old one's [__declared_dataclasses__] entry, if any. *)
Definition process_slots : Synthesizer :=
  λ cls a h,
    if arg_slots a then
      match classes h !! cls with
      | Some o =>
          let cls' := fresh (dom (classes h)) in
          (Return cls', mkHeap (<[cls' := o]> (classes h)) (sets h))
      | None => (Raise TypeError, h)
      end
    else (Return cls, h).

(** ** Well-formed heaps and the frame of the synthesizer *)

(** What every heap satisfies: the ancestors of a live class are live
    classes, and an attribute holds the address of a set object.  Nothing
    is asked of the integers a set holds: they are identities that were
    recorded, and the class that had one may be gone. *)
Record heap_wf (h : Heap) : Prop := mk_heap_wf {
  wf_ancestors : ∀ c o d,
    classes h !! c = Some o → d ∈ ancestors o → d ∈ dom (classes h);
  wf_declared : ∀ c o r,
    classes h !! c = Some o → declared o = Some r → r ∈ dom (sets h)
}.

(** The assumption on [_process_class] where one is needed: it does not
    touch [__declared_dataclasses__] on any existing class nor any set
    object (it may create classes), and it leaves a well-formed heap
    well-formed. *)
Definition registry_frame (P : Synthesizer) : Prop :=
  ∀ cls a h,
    sets (P cls a h).2 = sets h ∧
    classes h ⊆ classes (P cls a h).2 ∧
    (heap_wf h → heap_wf (P cls a h).2).

(** [is_direct_dataclass] as a predicate on heaps. *)
Definition direct (h : Heap) (cls : ClassId) : Prop :=
  ∃ r, getattr_declared h cls = Some r ∧ cls ∈ set_contents h r.

Global Arguments direct : simpl never.

(** ** Options and programs used below *)

(** [dataclass(slots=True)] *)
Definition slots_options : Options :=
  mkOptions true true true false false false true false true false.

(** [dataclass(eq=False, unsafe_hash=True)]: hashing requested, equality
    disabled. *)
Definition hash_without_eq : Options :=
  mkOptions true true false false true false true false false false.

(** The same keywords, with [weakref_slot=b]. *)
Definition with_weakref_slot (b : bool) (o : Options) : Options :=
  mkOptions (opt_init o) (opt_repr o) (opt_eq o) (opt_order o)
            (opt_unsafe_hash o) (opt_frozen o) (opt_match_args o)
            (opt_kw_only o) (opt_slots o) b.

(** [class Foo: ...], not decorated yet.  [Foo] is class 1. *)
Definition world_one_class : World :=
  (run process_in_place [ClassDef []] empty_world).2.

(** [@dataclass class Base: ...] then [class Derived(Base): ...], not decorated
    yet.  [Base] is class 1 and holds set 1, [Derived] is class 2. *)
Definition world_base_derived : World :=
  (run process_in_place
       [ClassDef []; Decorate default_options 1; ClassDef [1%positive]]
       empty_world).2.

(** A mixin that is decorated late:
<<
    class X: ...
    @dataclass
    class P: ...
    @dataclass
    class C(X, P): ...
>>
    [X] is class 1, [P] class 2 and [C] class 3, with resolution order
    [C, X, P]. *)
Definition prog_mixin : list op :=
  [ClassDef []; ClassDef []; Decorate default_options 2;
   ClassDef [1%positive; 2%positive]; Decorate default_options 3].

Definition world_mixin : World := (run process_in_place prog_mixin empty_world).2.

(** [class X: ...] and [@dataclass class Y: ...], unrelated; [X] is class 1
    and not decorated yet, [Y] is class 2. *)
Definition world_two_classes : World :=
  (run process_in_place
       [ClassDef []; ClassDef []; Decorate default_options 2] empty_world).2.

(** [class Base: ...] and [@dataclass class Derived(Base): ...]: the subclass
    was decorated while the base was not.  [Base] is class 1, [Derived] is
    class 2 and holds set 1. *)
Definition world_derived_first : World :=
  (run process_in_place
       [ClassDef []; ClassDef [1%positive]; Decorate default_options 2]
       empty_world).2.

(** [p] is a call of [dataclass] on [cls]. *)
Definition submits (cls : ClassId) (p : op) : bool :=
  match p with
  | Decorate _ c => bool_decide (c = cls)
  | _ => false
  end.

(** A program with its observers taken out. *)
Definition quiet (prog : list op) : list op :=
  List.filter (λ p, negb (observer p)) prog.

Definition quiet_trace (tr : list (op * value)) : list (op * value) :=
  List.filter (λ e, negb (observer e.1)) tr.

(** ** Collecting a class *)

(** [del C] followed by garbage collection.  A class goes only when no live
    class has it among its ancestors, a subclass keeps its bases alive; its
    identity is then free, and [class_def] may give it to the next class.
    The set objects are not touched: line 74 stores the integer [id(cls)],
    not the class, and the set keeps it when the class is gone. *)
Definition collect (cls : ClassId) (h : Heap) : Heap :=
  if bool_decide (map_Forall (λ _ o, cls ∉ ancestors o) (classes h))
  then mkHeap (delete cls (classes h)) (sets h)
  else h.

(** Programs that also let go of classes. *)
Inductive stmt :=
  | Run (p : op)
  | Collect (cls : ClassId).

Section Exec.

Variable process_class : Synthesizer.

Fixpoint exec (prog : list stmt) (w : World) : World :=
  match prog with
  | [] => w
  | Run p :: prog' => exec prog' (step process_class p w).2
  | Collect cls :: prog' =>
      exec prog' (mkWorld (collect cls (heap w)) (calls w))
  end.

End Exec.

(** A decorated subclass that is dropped:
<<
    @dataclass
    class Base: ...
    @dataclass
    class Derived1(Base): ...
    del Derived1; gc.collect()
>>
    [Base] is class 1 and holds set 1; [Derived1] was class 2. *)
Definition prog_reuse : list stmt :=
  [Run (ClassDef []); Run (Decorate default_options 1);
   Run (ClassDef [1%positive]); Run (Decorate default_options 2);
   Collect 2].

Definition world_reuse : World := exec process_in_place prog_reuse empty_world.

(** ** Importing the module *)

(** The values a version tuple holds: integers and strings. *)
Inductive pyval :=
  | PInt (n : Z)
  | PStr (s : string).

(** [x == y]; an integer and a string are unequal. *)
Definition py_eq (x y : pyval) : bool :=
  match x, y with
  | PInt a, PInt b => (a =? b)%Z
  | PStr a, PStr b => String.eqb a b
  | _, _ => false
  end.

(** [x < y]; between an integer and a string it is a [TypeError]. *)
Definition py_lt (x y : pyval) : option bool :=
  match x, y with
  | PInt a, PInt b => Some (a <? b)%Z
  | PStr a, PStr b => Some (String.ltb a b)
  | _, _ => None
  end.

(** [u < v] on tuples: the first position where the items are unequal
    decides; without one, the shorter tuple is the smaller. *)
Fixpoint tuple_lt (u v : list pyval) : option bool :=
  match u, v with
  | _, [] => Some false
  | [], _ :: _ => Some true
  | x :: u', y :: v' => if py_eq x y then tuple_lt u' v' else py_lt x y
  end.

(** [sys.version_info]: [(major, minor, micro, releaselevel, serial)]. *)
Definition version_info (major minor micro : Z) (releaselevel : string)
    (serial : Z) : list pyval :=
  [PInt major; PInt minor; PInt micro; PStr releaselevel; PInt serial].

(** Which function a name is bound to. *)
Inductive binding :=
  | StandardDataclass
  | PatchedDataclass.

(** What importing the module leaves behind: its globals
    [DC_PATCH_INSTALLED] and [dataclass], whether [is_direct_dataclass] is
    defined, what [dataclasses.dataclass] is bound to, the warnings issued
    and the lines printed. *)
Record ModuleState := mkModule {
  DC_PATCH_INSTALLED : bool;
  module_dataclass : binding;
  is_direct_defined : bool;
  dataclasses_dataclass : binding;
  warned : list string;
  printed : list string
}.

(** The module body, lines 36-93.
<<
    if sys.version_info < (3, 10):
        warnings.warn(...)
        from dataclasses import dataclass
        DC_PATCH_INSTALLED = False
    else:
        ...
        dataclasses.dataclass = dataclass
        DC_PATCH_INSTALLED = True
    print(f"Dataclass patch is {'installed' if DC_PATCH_INSTALLED else 'not installed'}")
>> *)
Definition import_module (version : list pyval) : exn + ModuleState :=
  match tuple_lt version [PInt 3; PInt 10] with
  | None => inl TypeError
  | Some old =>
      let m :=
        if old then
          mkModule false StandardDataclass false StandardDataclass
            ["dataclass patch is not available for any version other than 3.10.0"]
            []
        else
          mkModule true PatchedDataclass true PatchedDataclass [] [] in
      inr (mkModule (DC_PATCH_INSTALLED m) (module_dataclass m)
             (is_direct_defined m) (dataclasses_dataclass m) (warned m)
             (printed m ++
                [String.append "Dataclass patch is "
                   (if DC_PATCH_INSTALLED m then "installed"
                    else "not installed")]))
  end.

(** ** Lookup lemmas *)

Lemma lookup_mro_Some h order r :
  lookup_mro h order = Some r → ∃ d, d ∈ order ∧ own_declared h d = Some r.
Proof.
  induction order as [|d order IH]; simpl; [done|].
  destruct (own_declared h d) as [r'|] eqn:Hd.
  - intros [= ->]. exists d. split; [left|done].
  - intros Hr. destruct (IH Hr) as (d' & Hin & Hd'). exists d'. split; [by right|done].
Qed.

Lemma lookup_mro_ext h h' order :
  (∀ d, d ∈ order → own_declared h' d = own_declared h d) →
  lookup_mro h' order = lookup_mro h order.
Proof.
  induction order as [|d order IH]; simpl; [done|]. intros Hext.
  rewrite (Hext d) by left. rewrite IH; [done|].
  intros d' Hd'. apply Hext. by right.
Qed.

Lemma mro_allocated h cls d :
  heap_wf h → d ∈ mro h cls → d ∈ dom (classes h).
Proof.
  intros Hwf. unfold mro. destruct (classes h !! cls) as [o|] eqn:Hc.
  - intros [->|Hd]%elem_of_cons.
    + apply elem_of_dom. eauto.
    + eapply wf_ancestors; eauto.
  - by intros ?%elem_of_nil.
Qed.

Lemma mro_self h cls : cls ∈ dom (classes h) → cls ∈ mro h cls.
Proof. intros [o Ho]%elem_of_dom. unfold mro. rewrite Ho. left. Qed.

(** Classes that are kept keep what they resolve to. *)
Lemma getattr_frame h h' cls :
  heap_wf h → classes h ⊆ classes h' → cls ∈ dom (classes h) →
  getattr_declared h' cls = getattr_declared h cls.
Proof.
  intros Hwf Hsub [o Ho]%elem_of_dom.
  assert (Hkeep : ∀ d, d ∈ dom (classes h) → classes h' !! d = classes h !! d).
  { intros d [od Hod]%elem_of_dom. rewrite Hod.
    by apply (lookup_weaken _ _ _ _ Hod). }
  unfold getattr_declared.
  assert (mro h' cls = mro h cls) as ->.
  { unfold mro. rewrite Hkeep; [done|]. apply elem_of_dom. eauto. }
  apply lookup_mro_ext. intros d Hd. unfold own_declared.
  rewrite Hkeep; [done|]. by eapply mro_allocated.
Qed.

Lemma direct_frame h h' cls :
  heap_wf h → classes h ⊆ classes h' → sets h' = sets h →
  cls ∈ dom (classes h) → direct h' cls ↔ direct h cls.
Proof.
  intros Hwf Hsub Hsets Hcls. unfold direct, set_contents.
  rewrite Hsets, (getattr_frame h h') by done. done.
Qed.

(** Resolution reads the classes only. *)
Lemma getattr_same_classes h h' cls :
  classes h' = classes h → getattr_declared h' cls = getattr_declared h cls.
Proof.
  intros Heq. unfold getattr_declared, mro. rewrite Heq.
  apply lookup_mro_ext. intros d _. unfold own_declared. by rewrite Heq.
Qed.

(** ** Lines 67-74 *)

(** The two ways through to line 74, with the heap each leaves: a new set
    attached to the class itself, or the set that was found, grown in
    place. *)
Lemma wrap_record_cases cls h h2 :
  wrap_record cls h = Some h2 →
  (getattr_declared h cls = None ∧
   h2 = mkHeap (alter (λ o, mkClass (ancestors o) (Some (fresh (dom (sets h)))))
                      cls (classes h))
               (<[fresh (dom (sets h)) := {[cls]}]> (sets h)))
  ∨ (∃ r, getattr_declared h cls = Some r ∧ (cls ∉ set_contents h r) ∧
          h2 = mkHeap (classes h) (<[r := {[cls]} ∪ set_contents h r]> (sets h))).
Proof.
  unfold wrap_record, wrap_seen.
  destruct (getattr_declared h cls) as [r|] eqn:Hget.
  - unfold set_mem. case_bool_decide as Hmem; [done|].
    intros [= <-]. right. exists r. done.
  - simpl. intros [= <-]. left. split; [done|].
    unfold set_add, setattr_declared, set_contents. simpl.
    rewrite lookup_insert_eq. simpl.
    rewrite insert_insert_eq. by rewrite (right_id_L ∅ (∪)).
Qed.

(** The early return of line 73 is taken exactly on a class whose identity
    is in the set it resolves to. *)
Lemma wrap_record_None cls h :
  wrap_record cls h = None ↔ direct h cls.
Proof.
  unfold wrap_record, wrap_seen, direct.
  destruct (getattr_declared h cls) as [r|] eqn:Hget.
  - unfold set_mem. case_bool_decide as Hmem.
    + split; [|done]. intros _. eauto.
    + split; [done|]. intros (r' & [= <-] & Hin). done.
  - simpl. split; [done|]. by intros (r' & ? & _).
Qed.

Lemma fresh_set_ref (h : Heap) : sets h !! fresh (dom (sets h)) = None.
Proof. apply not_elem_of_dom, is_fresh. Qed.

Lemma wrap_record_classes_dom cls h h2 :
  wrap_record cls h = Some h2 → dom (classes h2) = dom (classes h).
Proof.
  intros [[_ ->]|(r & _ & _ & ->)]%wrap_record_cases; simpl; [|done].
  apply dom_alter_L.
Qed.

(** A set is never overwritten and never loses an element. *)
Lemma wrap_record_grows cls h h2 r x :
  wrap_record cls h = Some h2 →
  x ∈ set_contents h r → x ∈ set_contents h2 r.
Proof.
  intros [[_ ->]|(r' & _ & _ & ->)]%wrap_record_cases; unfold set_contents; simpl.
  - destruct (decide (r = fresh (dom (sets h)))) as [->|Hne].
    + rewrite fresh_set_ref. simpl. set_solver.
    + by rewrite lookup_insert_ne.
  - destruct (decide (r = r')) as [->|Hne].
    + rewrite lookup_insert_eq. simpl. set_solver.
    + by rewrite lookup_insert_ne.
Qed.

(** The only identity that is added is that of the class at hand. *)
Lemma wrap_record_adds cls h h2 r x :
  wrap_record cls h = Some h2 →
  x ∈ set_contents h2 r → x = cls ∨ x ∈ set_contents h r.
Proof.
  intros [[_ ->]|(r' & _ & _ & ->)]%wrap_record_cases; unfold set_contents; simpl.
  - destruct (decide (r = fresh (dom (sets h)))) as [->|Hne].
    + rewrite lookup_insert_eq. simpl. set_solver.
    + rewrite lookup_insert_ne by done. eauto.
  - destruct (decide (r = r')) as [->|Hne].
    + rewrite lookup_insert_eq. simpl. set_solver.
    + rewrite lookup_insert_ne by done. eauto.
Qed.

(** After line 74 the class resolves to a set that holds its identity. *)
Lemma wrap_record_direct cls h h2 :
  cls ∈ dom (classes h) → wrap_record cls h = Some h2 → direct h2 cls.
Proof.
  intros [o Ho]%elem_of_dom [[_ ->]|(r & Hget & _ & ->)]%wrap_record_cases.
  - exists (fresh (dom (sets h))). unfold getattr_declared, mro, set_contents.
    simpl. rewrite lookup_alter_eq, Ho. simpl.
    unfold own_declared. simpl. rewrite lookup_alter_eq, Ho. simpl.
    rewrite lookup_insert_eq. simpl. split; [done|set_solver].
  - exists r. split; [by rewrite (getattr_same_classes h)|].
    unfold set_contents at 1. simpl. rewrite lookup_insert_eq. simpl. set_solver.
Qed.

Lemma wrap_record_wf cls h h2 :
  heap_wf h → cls ∈ dom (classes h) → wrap_record cls h = Some h2 → heap_wf h2.
Proof.
  intros Hwf Hcls Hrec.
  destruct (wrap_record_cases _ _ _ Hrec) as [[_ ->]|(r & Hget & _ & ->)].
  - split; simpl.
    + intros c o d Hc Hd. rewrite dom_alter_L.
      destruct (decide (c = cls)) as [->|Hne].
      * rewrite lookup_alter_eq in Hc.
        destruct (classes h !! cls) as [o'|] eqn:Ho'; simplify_eq/=.
        eapply wf_ancestors; eauto.
      * rewrite lookup_alter_ne in Hc by done. eapply wf_ancestors; eauto.
    + intros c o r Hc Hr. rewrite dom_insert_L.
      destruct (decide (c = cls)) as [->|Hne].
      * rewrite lookup_alter_eq in Hc.
        destruct (classes h !! cls) as [o'|] eqn:Ho'; simplify_eq/=. set_solver.
      * rewrite lookup_alter_ne in Hc by done.
        apply elem_of_union_r. eapply wf_declared; eauto.
  - split; simpl.
    + apply Hwf.
    + intros c o r' Hc Hr. rewrite dom_insert_L.
      apply elem_of_union_r. eapply wf_declared; eauto.
Qed.

(** A class that does not have [cls] in its resolution order resolves to
    what it resolved to before. *)
Lemma wrap_record_getattr_other cls h h2 y :
  cls ∉ mro h y → wrap_record cls h = Some h2 →
  getattr_declared h2 y = getattr_declared h y.
Proof.
  intros Hy [[_ ->]|(r & _ & _ & ->)]%wrap_record_cases;
    [|by apply getattr_same_classes].
  unfold getattr_declared.
  assert (mro (mkHeap (alter (λ o, mkClass (ancestors o) (Some (fresh (dom (sets h)))))
                             cls (classes h))
                      (<[fresh (dom (sets h)) := {[cls]}]> (sets h))) y = mro h y) as ->.
  { unfold mro. simpl. destruct (decide (y = cls)) as [->|Hne].
    - rewrite lookup_alter_eq. destruct (classes h !! cls); done.
    - by rewrite lookup_alter_ne. }
  apply lookup_mro_ext. intros d Hd. unfold own_declared. simpl.
  rewrite lookup_alter_ne; [done|]. intros ->. done.
Qed.

Lemma wrap_record_direct_other cls h h2 y :
  y ∈ dom (classes h) → cls ∉ mro h y → wrap_record cls h = Some h2 →
  direct h2 y ↔ direct h y.
Proof.
  intros Hy Hmro Hrec.
  assert (y ≠ cls) as Hne. { intros ->. by apply Hmro, mro_self. }
  unfold direct. rewrite (wrap_record_getattr_other cls h h2 y) by done.
  split; intros (r & Hget & Hin); exists r; (split; [done|]).
  - by destruct (wrap_record_adds _ _ _ _ _ Hrec Hin).
  - by eapply wrap_record_grows.
Qed.

(** ** [wrap] and [is_direct_dataclass] *)

Section PatchFacts.

Variable P : Synthesizer.

Lemma is_direct_spec cls w :
  (is_direct_dataclass cls w).1 = true ↔ direct (heap w) cls.
Proof.
  unfold is_direct_dataclass, direct. simpl. rewrite bool_decide_eq_true.
  destruct (getattr_declared (heap w) cls) as [r|].
  - split; [eauto|]. by intros (r' & [= <-] & ?).
  - split; [set_solver|]. by intros (r' & ? & _).
Qed.

Lemma is_direct_world cls w : (is_direct_dataclass cls w).2 = w.
Proof. done. Qed.

(** Line 73. *)
Lemma wrap_early o cls w :
  direct (heap w) cls → wrap P o cls w = (Return cls, w).
Proof. intros Hd%wrap_record_None. unfold wrap. by rewrite Hd. Qed.

(** Lines 74-76. *)
Lemma wrap_call o cls w h2 :
  wrap_record cls (heap w) = Some h2 →
  wrap P o cls w =
    ((P cls (process_args o) h2).1,
     mkWorld (P cls (process_args o) h2).2
             (calls w ++ [(cls, process_args o)])).
Proof.
  intros Hrec. unfold wrap. rewrite Hrec.
  by destruct (P cls (process_args o) h2).
Qed.

Lemma wrap_cases o cls w :
  (direct (heap w) cls ∧ wrap P o cls w = (Return cls, w))
  ∨ (∃ h2, wrap_record cls (heap w) = Some h2 ∧
           wrap P o cls w =
             ((P cls (process_args o) h2).1,
              mkWorld (P cls (process_args o) h2).2
                      (calls w ++ [(cls, process_args o)]))).
Proof.
  destruct (wrap_record cls (heap w)) as [h2|] eqn:Hrec.
  - right. exists h2. split; [done|]. by apply wrap_call.
  - left. apply wrap_record_None in Hrec. split; [done|]. by apply wrap_early.
Qed.

Hypothesis frame : registry_frame P.

Lemma frame_sets cls a h : sets (P cls a h).2 = sets h.
Proof. apply frame. Qed.

Lemma frame_contents cls a h r :
  set_contents (P cls a h).2 r = set_contents h r.
Proof. unfold set_contents. by rewrite frame_sets. Qed.

Lemma frame_classes cls a h : classes h ⊆ classes (P cls a h).2.
Proof. apply frame. Qed.

Lemma frame_wf cls a h : heap_wf h → heap_wf (P cls a h).2.
Proof. apply frame. Qed.

Lemma frame_dom cls a h d :
  d ∈ dom (classes h) → d ∈ dom (classes (P cls a h).2).
Proof.
  intros [o Ho]%elem_of_dom. apply elem_of_dom. exists o.
  by apply (lookup_weaken _ _ _ _ Ho), frame_classes.
Qed.

Lemma wrap_wf o cls w :
  heap_wf (heap w) → cls ∈ dom (classes (heap w)) →
  heap_wf (heap (wrap P o cls w).2).
Proof.
  intros Hwf Hcls.
  destruct (wrap_cases o cls w) as [[_ ->]|(h2 & Hrec & ->)]; simpl; [done|].
  by eapply frame_wf, wrap_record_wf.
Qed.

(** Once [wrap] is through, the class it was given is recorded: on the
    early return it was already, otherwise line 74 did it and
    [_process_class] left it. *)
Lemma wrap_direct o cls w :
  heap_wf (heap w) → cls ∈ dom (classes (heap w)) →
  direct (heap (wrap P o cls w).2) cls.
Proof.
  intros Hwf Hcls.
  destruct (wrap_cases o cls w) as [[Hd ->]|(h2 & Hrec & ->)]; simpl; [done|].
  apply (direct_frame h2).
  - by eapply wrap_record_wf.
  - apply frame_classes.
  - apply frame_sets.
  - by rewrite (wrap_record_classes_dom cls (heap w)).
  - by eapply wrap_record_direct.
Qed.

Lemma wrap_grows o cls w r x :
  x ∈ set_contents (heap w) r →
  x ∈ set_contents (heap (wrap P o cls w).2) r.
Proof.
  intros Hx.
  destruct (wrap_cases o cls w) as [[_ ->]|(h2 & Hrec & ->)]; simpl; [done|].
  rewrite frame_contents. by eapply wrap_record_grows.
Qed.

Lemma wrap_adds o cls w r x :
  x ∈ set_contents (heap (wrap P o cls w).2) r →
  x = cls ∨ x ∈ set_contents (heap w) r.
Proof.
  destruct (wrap_cases o cls w) as [[_ ->]|(h2 & Hrec & ->)]; simpl; [eauto|].
  rewrite frame_contents. by eapply wrap_record_adds.
Qed.

Lemma wrap_direct_other o x y w :
  heap_wf (heap w) → x ∈ dom (classes (heap w)) →
  y ∈ dom (classes (heap w)) → x ∉ mro (heap w) y →
  direct (heap (wrap P o x w).2) y ↔ direct (heap w) y.
Proof.
  intros Hwf Hx Hy Hmro.
  destruct (wrap_cases o x w) as [[_ ->]|(h2 & Hrec & ->)]; simpl; [done|].
  rewrite <- (wrap_record_direct_other x (heap w) h2 y) by done.
  apply (direct_frame h2).
  - by apply (wrap_record_wf x (heap w)).
  - apply frame_classes.
  - apply frame_sets.
  - by rewrite (wrap_record_classes_dom x (heap w)).
Qed.

End PatchFacts.

(** ** The class statement keeps heaps well-formed *)

Lemma bool_filter_elem_of {A} (f : A → bool) (l : list A) x :
  x ∈ List.filter f l → x ∈ l.
Proof. rewrite !list_elem_of_In, filter_In. tauto. Qed.

Lemma c3_drop_elem_of x y s : y ∈ c3_drop x s → y ∈ s.
Proof.
  destruct s as [|z s]; simpl; [done|].
  case_decide; [|done]. intros Hy. by right.
Qed.

(** A linearization lists nothing but classes of the orders it merges. *)
Lemma c3_merge_elem_of fuel seqs order x :
  c3_merge fuel seqs = Some order → x ∈ order → ∃ s, s ∈ seqs ∧ x ∈ s.
Proof.
  revert seqs order. induction fuel as [|fuel IH]; intros seqs order; simpl.
  - destruct (List.filter c3_nonempty seqs); [|done].
    intros [= <-] Hx. by apply elem_of_nil in Hx.
  - destruct (List.filter c3_nonempty seqs) as [|s0 rest] eqn:Hf.
    { intros [= <-] Hx. by apply elem_of_nil in Hx. }
    destruct (c3_candidate (s0 :: rest)) as [x0|] eqn:Hcand; [|done].
    destruct (c3_merge fuel _) as [order'|] eqn:Hm; [|done].
    simpl. intros [= <-] [->|Hx]%elem_of_cons.
    + unfold c3_candidate in Hcand.
      apply head_Some_elem_of, bool_filter_elem_of, list_elem_of_omap in Hcand
        as (s & Hs & Hhead).
      exists s. split.
      * apply (bool_filter_elem_of c3_nonempty). by rewrite Hf.
      * apply head_Some in Hhead as [s' ->]. left.
    + destruct (IH _ _ Hm Hx) as (s' & Hs' & Hxs').
      change (s' ∈ c3_drop x0 <$> s0 :: rest) in Hs'.
      apply list_elem_of_fmap in Hs' as (s & -> & Hs).
      exists s. split.
      * apply (bool_filter_elem_of c3_nonempty). by rewrite Hf.
      * by eapply c3_drop_elem_of.
Qed.

Lemma linearize_allocated h bases order d :
  heap_wf h → Forall (λ b, b ∈ dom (classes h)) bases →
  linearize h bases = Some order → d ∈ order → d ∈ dom (classes h).
Proof.
  intros Hwf Hbases Hlin Hd. unfold linearize in Hlin.
  destruct (c3_merge_elem_of _ _ _ _ Hlin Hd) as (s & Hs & Hds).
  apply elem_of_app in Hs as [Hs|Hs].
  - apply list_elem_of_fmap in Hs as (b & -> & _). by eapply mro_allocated.
  - apply list_elem_of_singleton in Hs as ->.
    by apply (proj1 (Forall_forall _ _) Hbases).
Qed.

Lemma class_def_cases bases h :
  (∃ order, linearize h bases = Some order ∧
            Forall (λ b, b ∈ dom (classes h)) bases ∧
            class_def bases h =
              (Return (fresh (dom (classes h))),
               mkHeap (<[fresh (dom (classes h)) := mkClass order None]> (classes h))
                      (sets h)))
  ∨ (∃ e, class_def bases h = (Raise e, h)).
Proof.
  unfold class_def.
  destruct (forallb _ bases) eqn:Hall; [|right; eauto].
  destruct (linearize h bases) as [order|]; [|right; eauto].
  left. exists order. split; [done|]. split; [|done].
  apply Forall_forall. intros b Hb.
  apply list_elem_of_In in Hb.
  by apply (proj1 (forallb_forall _ _) Hall), bool_decide_eq_true in Hb.
Qed.

Lemma fresh_class (h : Heap) : classes h !! fresh (dom (classes h)) = None.
Proof. apply not_elem_of_dom, is_fresh. Qed.

Lemma class_def_sets bases h : sets (class_def bases h).2 = sets h.
Proof. by destruct (class_def_cases bases h) as [(? & _ & _ & ->)|[? ->]]. Qed.

Lemma class_def_wf bases h : heap_wf h → heap_wf (class_def bases h).2.
Proof.
  intros Hwf.
  destruct (class_def_cases bases h) as [(order & Hlin & Hb & ->)|[? ->]];
    simpl; [|done].
  split; simpl.
  - intros c o d Hc Hd. rewrite dom_insert_L. apply elem_of_union_r.
    destruct (decide (c = fresh (dom (classes h)))) as [->|Hne].
    + rewrite lookup_insert_eq in Hc. simplify_eq/=.
      by eapply linearize_allocated.
    + rewrite lookup_insert_ne in Hc by done. eapply wf_ancestors; eauto.
  - intros c o r Hc Hr.
    destruct (decide (c = fresh (dom (classes h)))) as [->|Hne].
    + rewrite lookup_insert_eq in Hc. by simplify_eq/=.
    + rewrite lookup_insert_ne in Hc by done. eapply wf_declared; eauto.
Qed.

(** The class a class statement makes has an identity that no live class
    has; the set objects are as they were, whatever integers they hold. *)
Lemma class_def_fresh bases h cls h' :
  class_def bases h = (Return cls, h') →
  (cls ∉ dom (classes h)) ∧ sets h' = sets h.
Proof.
  intros Hdef.
  destruct (class_def_cases bases h) as [(order & _ & _ & Heq)|[e Heq]];
    rewrite Heq in Hdef; [|done].
  injection Hdef as <- <-. split; [apply is_fresh|done].
Qed.

(** ** Programs *)

Section ProgramFacts.

Variable P : Synthesizer.

Lemma step_class_def bases w :
  step P (ClassDef bases) w =
    (value_of (class_def bases (heap w)).1,
     mkWorld (class_def bases (heap w)).2 (calls w)).
Proof. simpl. by destruct (class_def bases (heap w)). Qed.

Lemma step_decorate o cls w :
  cls ∈ dom (classes (heap w)) →
  step P (Decorate o cls) w =
    (value_of (wrap P o cls w).1, (wrap P o cls w).2).
Proof.
  intros Hcls. simpl. rewrite bool_decide_eq_true_2 by done.
  by destruct (wrap P o cls w).
Qed.

Lemma step_unknown_class o cls w :
  cls ∉ dom (classes (heap w)) →
  step P (Decorate o cls) w = (VRaise NameError, w).
Proof. intros Hcls. simpl. by rewrite bool_decide_eq_false_2. Qed.

Lemma step_is_direct cls w : (step P (IsDirect cls) w).2 = w.
Proof. simpl. by case_bool_decide. Qed.

Lemma run_cons p prog w :
  run P (p :: prog) w =
    ((p, (step P p w).1) :: (run P prog (step P p w).2).1,
     (run P prog (step P p w).2).2).
Proof.
  simpl. destruct (step P p w) as [v w1]. simpl.
  by destruct (run P prog w1).
Qed.

Hypothesis frame : registry_frame P.

Lemma step_wf p w : heap_wf (heap w) → heap_wf (heap (step P p w).2).
Proof.
  intros Hwf. destruct p as [bases|o cls|cls].
  - rewrite step_class_def. simpl. by apply class_def_wf.
  - destruct (decide (cls ∈ dom (classes (heap w)))).
    + rewrite step_decorate by done. simpl. by apply wrap_wf.
    + by rewrite step_unknown_class.
  - by rewrite step_is_direct.
Qed.

Lemma step_grows p w r x :
  x ∈ set_contents (heap w) r →
  x ∈ set_contents (heap (step P p w).2) r.
Proof.
  intros Hx. destruct p as [bases|o cls|cls].
  - rewrite step_class_def. unfold set_contents. simpl.
    by rewrite class_def_sets.
  - destruct (decide (cls ∈ dom (classes (heap w)))).
    + rewrite step_decorate by done. simpl. by apply wrap_grows.
    + by rewrite step_unknown_class.
  - by rewrite step_is_direct.
Qed.

Lemma step_adds p w r x :
  x ∈ set_contents (heap (step P p w).2) r →
  x ∈ set_contents (heap w) r ∨ ∃ o, p = Decorate o x.
Proof.
  destruct p as [bases|o cls|cls].
  - rewrite step_class_def. unfold set_contents. simpl.
    rewrite class_def_sets. eauto.
  - destruct (decide (cls ∈ dom (classes (heap w)))).
    + rewrite step_decorate by done. simpl.
      intros [->|Hx]%wrap_adds; eauto.
    + rewrite step_unknown_class by done. eauto.
  - rewrite step_is_direct. eauto.
Qed.

(** Every world a program reaches from a well-formed one is well-formed. *)
Lemma run_wf prog w : heap_wf (heap w) → heap_wf (heap (run P prog w).2).
Proof.
  revert w. induction prog as [|p prog IH]; intros w Hwf; [done|].
  rewrite run_cons. simpl. by apply IH, step_wf.
Qed.

(** No statement removes an identity from a set object, nor replaces a
    set object by another at the same address. *)
Lemma registry_only_grows prog w r x :
  x ∈ set_contents (heap w) r →
  x ∈ set_contents (heap (run P prog w).2) r.
Proof.
  revert w. induction prog as [|p prog IH]; intros w Hx; [done|].
  rewrite run_cons. simpl. by apply IH, step_grows.
Qed.

(** An identity gets into a set only by a call of [dataclass] on its
    class. *)
Lemma run_never_submitted prog w x :
  existsb (submits x) prog = false →
  (∀ r, x ∉ set_contents (heap w) r) →
  ∀ r, x ∉ set_contents (heap (run P prog w).2) r.
Proof.
  revert w. induction prog as [|p prog IH]; intros w Hprog Hw; [done|].
  rewrite run_cons. simpl in *.
  apply orb_false_elim in Hprog as [Hp Hprog]. apply IH; [done|].
  intros r [Hx|[o ->]]%step_adds; [by apply (Hw r)|].
  simpl in Hp. by rewrite bool_decide_eq_true_2 in Hp.
Qed.

End ProgramFacts.

Lemma empty_world_wf : heap_wf (heap empty_world).
Proof. split; simpl; intros *; by rewrite lookup_empty. Qed.

(** Every world a program builds from nothing is well-formed. *)
Lemma reachable_wf P prog :
  registry_frame P → heap_wf (heap (run P prog empty_world).2).
Proof. intros Hf. apply run_wf; [done|apply empty_world_wf]. Qed.

(** ** The synthesizers respect the frame *)

Lemma process_in_place_frame : registry_frame process_in_place.
Proof. intros cls a h. done. Qed.

Lemma process_raising_frame e : registry_frame (process_raising e).
Proof. intros cls a h. done. Qed.

Lemma process_checked_frame : registry_frame process_checked.
Proof.
  intros cls a h. unfold process_checked.
  by destruct (arg_unsafe_hash a && negb (arg_eq a)).
Qed.

Lemma process_slots_frame : registry_frame process_slots.
Proof.
  intros cls a h. unfold process_slots.
  destruct (arg_slots a); [|done].
  destruct (classes h !! cls) as [o|] eqn:Ho; [|done]. simpl.
  split; [done|]. split; [apply insert_subseteq, fresh_class|].
  intros Hwf. split; simpl.
  - intros c o' d Hc Hd. rewrite dom_insert_L. apply elem_of_union_r.
    destruct (decide (c = fresh (dom (classes h)))) as [->|Hne].
    + rewrite lookup_insert_eq in Hc. simplify_eq. eapply wf_ancestors; eauto.
    + rewrite lookup_insert_ne in Hc by done. eapply wf_ancestors; eauto.
  - intros c o' r Hc Hr.
    destruct (decide (c = fresh (dom (classes h)))) as [->|Hne].
    + rewrite lookup_insert_eq in Hc. simplify_eq. eapply wf_declared; eauto.
    + rewrite lookup_insert_ne in Hc by done. eapply wf_declared; eauto.
Qed.

(** Both ways of calling [dataclass]: with keywords only it hands out
    [wrap], with a class it runs [wrap] on it. *)
Lemma dataclass_forms P o cls :
  dataclass P None o = inl (wrap P o) ∧
  dataclass P (Some cls) o = inr (wrap P o cls).
Proof. done. Qed.

(** ** A second call on the same class object *)

(** Whatever [_process_class] answered, a class that went through [wrap]
    once takes the early return from then on: the class comes back, the
    world is untouched, nothing is synthesized. *)
Lemma wrap_again P o o' cls w :
  registry_frame P → heap_wf (heap w) → cls ∈ dom (classes (heap w)) →
  wrap P o' cls (wrap P o cls w).2 = (Return cls, (wrap P o cls w).2).
Proof. intros Hf Hwf Hcls. by apply wrap_early, wrap_direct. Qed.

(** Statements that only observe can be left out of a program. *)
Lemma run_quiet P prog w :
  (run P (quiet prog) w).2 = (run P prog w).2 ∧
  (run P (quiet prog) w).1 = quiet_trace (run P prog w).1.
Proof.
  revert w. induction prog as [|p prog IH]; intros w; [done|].
  rewrite run_cons. unfold quiet, quiet_trace in *.
  cbn [List.filter fst snd].
  destruct p as [bases|o cls|cls]; cbn [observer negb].
  - rewrite run_cons. cbn [fst snd].
    by destruct (IH (step P (ClassDef bases) w).2) as [-> ->].
  - rewrite run_cons. cbn [fst snd].
    by destruct (IH (step P (Decorate o cls) w).2) as [-> ->].
  - rewrite step_is_direct. apply IH.
Qed.

(** ** Claims *)

(** C10.  [is_direct_dataclass] only observes: it hands the world back as
    it received it; with no set reachable from the class it answers [False]
    against an empty set that it attaches nowhere; and taking every
    [is_direct_dataclass] call out of a program changes neither the world
    the program ends in, nor what any other statement of it gives, nor what
    any statement run after it gives. *)
Theorem is_direct_observer_only (P : Synthesizer) :
  (∀ cls w, (is_direct_dataclass cls w).2 = w) ∧
  (∀ cls w, (is_direct_dataclass cls w).1 =
            match getattr_declared (heap w) cls with
            | Some r => set_mem (heap w) r cls
            | None => false
            end) ∧
  (∀ prog w, (run P (quiet prog) w).2 = (run P prog w).2 ∧
             (run P (quiet prog) w).1 = quiet_trace (run P prog w).1) ∧
  (∀ prog p w, step P p (run P (quiet prog) w).2 = step P p (run P prog w).2).
Proof.
  split; [done|]. split.
  - intros cls w. unfold is_direct_dataclass, set_mem. simpl.
    destruct (getattr_declared (heap w) cls); [done|].
    apply bool_decide_eq_false_2. set_solver.
  - split; [apply run_quiet|].
    intros prog p w. by destruct (run_quiet P prog w) as [-> _].
Qed.

(** C7.  [weakref_slot] does not reach [_process_class]: whatever value the
    caller gives it, [wrap] does the same and makes the same call.  The nine
    other keywords are forwarded as they were given. *)
Theorem weakref_slot_not_forwarded (P : Synthesizer) (o : Options) :
  (∀ b cls w, wrap P (with_weakref_slot b o) cls w = wrap P o cls w) ∧
  process_args (with_weakref_slot true o) =
    process_args (with_weakref_slot false o) ∧
  process_args o =
    mkProcessArgs (opt_init o) (opt_repr o) (opt_eq o) (opt_order o)
                  (opt_unsafe_hash o) (opt_frozen o) (opt_match_args o)
                  (opt_kw_only o) (opt_slots o).
Proof. done. Qed.

(** C3, as the code has it.  A class whose set was found through an
    ancestor, and whose identity the set does not hold yet, gets no set of
    its own: line 74 adds the identity to the ancestor's set object.  The
    classes are untouched, the class still has no entry of its own and
    still resolves to the ancestor's set, which now holds the identity on
    top of what it held; no other set object changes. *)
Theorem inherited_registry_is_shared (cls : ClassId) (h : Heap) (r : SetRef) :
  own_declared h cls = None →
  getattr_declared h cls = Some r →
  cls ∉ set_contents h r →
  ∃ h2, wrap_record cls h = Some h2 ∧
        classes h2 = classes h ∧
        own_declared h2 cls = None ∧
        getattr_declared h2 cls = Some r ∧
        set_contents h2 r = {[cls]} ∪ set_contents h r ∧
        ∀ r', r' ≠ r → sets h2 !! r' = sets h !! r'.
Proof.
  intros Hown Hget Hnot.
  exists (set_add r cls h). split.
  { unfold wrap_record, wrap_seen, set_mem. rewrite Hget.
    by rewrite bool_decide_eq_false_2. }
  split; [done|]. split; [done|]. split.
  { by rewrite (getattr_same_classes h). }
  split.
  - unfold set_contents at 1, set_add. simpl. by rewrite lookup_insert_eq.
  - intros r' Hne. unfold set_add. simpl. by rewrite lookup_insert_ne.
Qed.

Lemma inherited_registry_is_shared_witness :
  ∃ h2, wrap_record 2 (heap world_base_derived) = Some h2 ∧
        classes h2 = classes (heap world_base_derived) ∧
        own_declared h2 2 = None ∧
        getattr_declared h2 2 = Some 1%positive ∧
        set_contents h2 1 = {[2%positive]} ∪ set_contents (heap world_base_derived) 1 ∧
        ∀ r', r' ≠ 1%positive → sets h2 !! r' = sets (heap world_base_derived) !! r'.
Proof.
  apply (inherited_registry_is_shared 2 (heap world_base_derived) 1).
  - vm_compute. reflexivity.
  - vm_compute. reflexivity.
  - apply (bool_decide_eq_false_1
             (2%positive ∈ set_contents (heap world_base_derived) 1)).
    vm_compute. reflexivity.
Defined.

(** C3, as the claim has it, fails on [Derived(Base)].  [Derived] resolves
    to the set of [Base] and has none of its own; lines 67-74 add its
    identity to that very set and attach nothing: afterwards [Derived] still
    has no set of its own, and the set of [Base], which held the identity of
    [Base] alone, holds both. *)
Lemma inherited_registry_not_shadowed :
  getattr_declared (heap world_base_derived) 2 = Some 1%positive ∧
  own_declared (heap world_base_derived) 2 = None ∧
  set_contents (heap world_base_derived) 1 = {[1%positive]} ∧
  wrap_record 2 (heap world_base_derived)
    = Some (set_add 1 2 (heap world_base_derived)) ∧
  own_declared (set_add 1 2 (heap world_base_derived)) 2 = None ∧
  set_contents (set_add 1 2 (heap world_base_derived)) 1
    = {[1%positive; 2%positive]}.
Proof. repeat split; by vm_compute. Qed.

(** C6.  When [_process_class] raises [SynthesisError] in the call of
    line 75, [wrap] raises that same exception, nothing undoes line 74: the
    class is recorded afterwards, [is_direct_dataclass] answers [True], and
    a later call of [wrap] on the class, with any options, returns the class
    at line 73 and leaves the world, the log of synthesizer calls included,
    as it was. *)
Theorem synthesis_failure_no_rollback
    (P : Synthesizer) (o : Options) (cls : ClassId) (w : World) (h2 h3 : Heap) :
  registry_frame P →
  heap_wf (heap w) →
  cls ∈ dom (classes (heap w)) →
  wrap_record cls (heap w) = Some h2 →
  P cls (process_args o) h2 = (Raise SynthesisError, h3) →
  wrap P o cls w =
    (Raise SynthesisError, mkWorld h3 (calls w ++ [(cls, process_args o)])) ∧
  (is_direct_dataclass cls (wrap P o cls w).2).1 = true ∧
  ∀ o', wrap P o' cls (wrap P o cls w).2 = (Return cls, (wrap P o cls w).2).
Proof.
  intros Hf Hwf Hcls Hrec Hraise. split.
  - rewrite (wrap_call P o cls w h2 Hrec). by rewrite Hraise.
  - split.
    + apply is_direct_spec. by apply wrap_direct.
    + intros o'. by apply wrap_again.
Qed.

Lemma synthesis_failure_no_rollback_witness :
  wrap (process_raising SynthesisError) default_options 1 world_one_class =
    (Raise SynthesisError,
     mkWorld (set_add 1 1 (setattr_declared 1 1 (new_set (heap world_one_class)).2))
             (calls world_one_class ++ [(1%positive, process_args default_options)])) ∧
  (is_direct_dataclass 1
     (wrap (process_raising SynthesisError) default_options 1 world_one_class).2).1
    = true ∧
  ∀ o', wrap (process_raising SynthesisError) o' 1
             (wrap (process_raising SynthesisError) default_options 1
                   world_one_class).2
        = (Return 1%positive,
           (wrap (process_raising SynthesisError) default_options 1
                 world_one_class).2).
Proof.
  apply (synthesis_failure_no_rollback (process_raising SynthesisError)
           default_options 1 world_one_class
           (set_add 1 1 (setattr_declared 1 1 (new_set (heap world_one_class)).2))).
  - apply process_raising_frame.
  - apply run_wf; [apply process_in_place_frame | apply empty_world_wf].
  - apply (bool_decide_unpack _). vm_compute. exact I.
  - vm_compute. reflexivity.
  - reflexivity.
Defined.

(** C2, as the code has it.  [wrap] checks no option.  On a class that is
    not recorded yet, with [unsafe_hash] set and [eq] cleared, it records the
    identity first (attaching a set if none is reachable) and then calls
    [_process_class] with these very flags; what [wrap] returns or raises is
    what [_process_class] returned or raised, and either way
    [is_direct_dataclass] answers [True] afterwards. *)
Theorem rejection_follows_recording
    (P : Synthesizer) (o : Options) (cls : ClassId) (w : World) :
  registry_frame P →
  heap_wf (heap w) →
  cls ∈ dom (classes (heap w)) →
  opt_unsafe_hash o = true →
  opt_eq o = false →
  (is_direct_dataclass cls w).1 = false →
  ∃ h2, wrap_record cls (heap w) = Some h2 ∧
        direct h2 cls ∧
        arg_unsafe_hash (process_args o) = true ∧
        arg_eq (process_args o) = false ∧
        wrap P o cls w =
          ((P cls (process_args o) h2).1,
           mkWorld (P cls (process_args o) h2).2
                   (calls w ++ [(cls, process_args o)])) ∧
        (is_direct_dataclass cls (wrap P o cls w).2).1 = true.
Proof.
  intros Hf Hwf Hcls Hhash Heq Hnot.
  destruct (wrap_record cls (heap w)) as [h2|] eqn:Hrec.
  - exists h2. split; [done|]. split; [by eapply wrap_record_direct|].
    split; [done|]. split; [done|]. split; [by apply wrap_call|].
    apply is_direct_spec. by apply wrap_direct.
  - apply wrap_record_None, is_direct_spec in Hrec. congruence.
Qed.

Lemma rejection_follows_recording_witness :
  ∃ h2, wrap_record 1 (heap world_one_class) = Some h2 ∧
        direct h2 1%positive ∧
        arg_unsafe_hash (process_args hash_without_eq) = true ∧
        arg_eq (process_args hash_without_eq) = false ∧
        wrap process_checked hash_without_eq 1 world_one_class =
          ((process_checked 1%positive (process_args hash_without_eq) h2).1,
           mkWorld (process_checked 1%positive (process_args hash_without_eq) h2).2
                   (calls world_one_class
                      ++ [(1%positive, process_args hash_without_eq)])) ∧
        (is_direct_dataclass 1
           (wrap process_checked hash_without_eq 1 world_one_class).2).1 = true.
Proof.
  apply (rejection_follows_recording process_checked hash_without_eq 1
           world_one_class).
  - apply process_checked_frame.
  - apply run_wf; [apply process_in_place_frame | apply empty_world_wf].
  - apply (bool_decide_unpack _). vm_compute. exact I.
  - reflexivity.
  - reflexivity.
  - vm_compute. reflexivity.
Defined.

(** C2, as the claim has it, fails on a class [Foo] that was never
    decorated.  With a synthesizer that does reject hashing without
    equality, [dataclass(eq=False, unsafe_hash=True)(Foo)] raises
    [InvalidOptionCombination], and [Foo], which was not recorded before the
    call, is recorded after it, in a set that the call attached to it.  With
    a synthesizer that takes the combination, the call raises nothing and
    returns [Foo]: [wrap] itself rejects no options. *)
Lemma rejected_options_are_recorded :
  (is_direct_dataclass 1 world_one_class).1 = false ∧
  own_declared (heap world_one_class) 1 = None ∧
  (wrap process_checked hash_without_eq 1 world_one_class).1
    = Raise InvalidOptionCombination ∧
  (is_direct_dataclass 1
     (wrap process_checked hash_without_eq 1 world_one_class).2).1 = true ∧
  own_declared
    (heap (wrap process_checked hash_without_eq 1 world_one_class).2) 1
    = Some 1%positive ∧
  (wrap process_in_place hash_without_eq 1 world_one_class).1 = Return 1.
Proof. repeat split; by vm_compute. Qed.

(** After [dataclass] on [Base] returned, [Base] answers [True]; and a
    subclass whose identity is in no set when the class is made answers
    [False], at once and after any further statements, unless one of them
    is a call of [dataclass] on it. *)
Lemma direct_vs_inherited_without_reuse
    (P : Synthesizer) (o : Options) (w w1 w2 : World)
    (base base' derived : ClassId) (bases : list ClassId) (prog : list op) :
  registry_frame P →
  heap_wf (heap w) →
  base ∈ dom (classes (heap w)) →
  wrap P o base w = (Return base', w1) →
  step P (ClassDef bases) w1 = (VClass derived, w2) →
  (∀ r, derived ∉ set_contents (heap w1) r) →
  existsb (submits derived) prog = false →
  (is_direct_dataclass base w1).1 = true ∧
  (is_direct_dataclass derived (run P prog w2).2).1 = false.
Proof.
  intros Hf Hwf Hbase Hwrap Hdef Hnew Hprog.
  assert (w1 = (wrap P o base w).2) as -> by by rewrite Hwrap.
  split.
  { apply is_direct_spec. by apply wrap_direct. }
  rewrite step_class_def in Hdef.
  destruct (class_def bases (heap (wrap P o base w).2)) as [res h'] eqn:Hcd.
  destruct res as [c|e]; simplify_eq/=.
  apply not_true_is_false. intros (r & _ & Hin)%is_direct_spec. revert Hin.
  apply run_never_submitted; [done..|].
  intros r'. unfold set_contents. simpl.
  destruct (class_def_fresh _ _ _ _ Hcd) as [_ ->]. apply Hnew.
Qed.

(** C4, at a subclass made after a decorated subclass was collected.  The
    answer of [is_direct_dataclass] is membership of the identity in the set
    the class resolves to, and [Base] answers [True].  But the set of [Base]
    still holds the integer that was the identity of [Derived1]; the class
    statement gives that identity to [Derived2(Base)], which was never
    passed to [dataclass]: [is_direct_dataclass(Derived2)] is [True], and
    [dataclass(Derived2)] returns at line 73 without calling
    [_process_class]. *)
Theorem reused_identity_answers_direct :
  let made := step process_in_place (ClassDef [1%positive]) world_reuse in
  classes (heap world_reuse) !! 2%positive = None ∧
  set_contents (heap world_reuse) 1 = {[1%positive; 2%positive]} ∧
  made.1 = VClass 2 ∧
  mro (heap made.2) 2 = [2%positive; 1%positive] ∧
  calls made.2 = calls world_reuse ∧
  (is_direct_dataclass 1 made.2).1 = true ∧
  (is_direct_dataclass 2 made.2).1 = true ∧
  wrap process_in_place default_options 2 made.2 = (Return 2%positive, made.2).
Proof. repeat split; by vm_compute. Qed.

(** C9.  For two classes neither of which is in the resolution order of the
    other, a call of [dataclass] on the one leaves the answer of
    [is_direct_dataclass] on the other as it was. *)
Theorem independent_registries
    (P : Synthesizer) (o : Options) (x y : ClassId) (w : World) :
  registry_frame P →
  heap_wf (heap w) →
  x ∈ dom (classes (heap w)) →
  y ∈ dom (classes (heap w)) →
  x ∉ mro (heap w) y →
  y ∉ mro (heap w) x →
  (is_direct_dataclass y (wrap P o x w).2).1 = (is_direct_dataclass y w).1.
Proof.
  intros Hf Hwf Hx Hy Hxy _. apply eq_true_iff_eq.
  rewrite !is_direct_spec. by apply wrap_direct_other.
Qed.

Lemma independent_registries_witness :
  (is_direct_dataclass 2
     (wrap process_in_place default_options 1 world_two_classes).2).1
  = (is_direct_dataclass 2 world_two_classes).1.
Proof.
  apply (independent_registries process_in_place default_options 1 2
           world_two_classes).
  - apply process_in_place_frame.
  - apply run_wf; [apply process_in_place_frame | apply empty_world_wf].
  - apply (bool_decide_unpack _). vm_compute. exact I.
  - apply (bool_decide_unpack _). vm_compute. exact I.
  - apply (bool_decide_unpack _). vm_compute. exact I.
  - apply (bool_decide_unpack _). vm_compute. exact I.
Defined.

(** C1, at [dataclass(slots=True)] applied twice.  The first call, on [Foo]
    (class 1), records the identity of [Foo] and returns the replacement
    class [_process_class] built (class 2).  The second call, on what the
    first returned, finds the set of [Foo] through the copied dictionary,
    does not find the identity of class 2 in it, records it and calls
    [_process_class] again: two synthesizer calls, and what comes back is
    not the class that went in.  (The standard library, asked a second time,
    raises [TypeError] on a class that has [__slots__] already; the call is
    made all the same.) *)
Theorem slots_replacement_synthesized_twice :
  let first := wrap process_slots slots_options 1 world_one_class in
  let second := wrap process_slots slots_options 2 first.2 in
  first.1 = Return 2 ∧
  calls first.2 = [(1%positive, process_args slots_options)] ∧
  second ≠ (Return 2%positive, first.2) ∧
  second.1 ≠ Return 2 ∧
  set_mem (heap second.2) 1 2 = true ∧
  calls second.2 = [(1%positive, process_args slots_options);
                    (2%positive, process_args slots_options)].
Proof. repeat split; by vm_compute. Qed.

(** C5, at [Alias = dataclass(slots=True)(Base)].  [Alias] is the class the
    call returned (class 2), not [Base] (class 1).  The identity that was
    recorded is that of [Base]: [is_direct_dataclass(Base)] is [True],
    [is_direct_dataclass(Alias)] is [False], and [dataclass] applied to
    [Alias] does not return [Alias], it synthesizes again. *)
Theorem slots_alias_not_direct :
  let first := wrap process_slots slots_options 1 world_one_class in
  let again := wrap process_slots slots_options 2 first.2 in
  first.1 = Return 2 ∧
  (is_direct_dataclass 1 first.2).1 = true ∧
  (is_direct_dataclass 2 first.2).1 = false ∧
  again.1 ≠ Return 2 ∧
  length (calls again.2) = S (length (calls first.2)).
Proof. repeat split; by vm_compute. Qed.

(** C8, at a mixin decorated after its subclass.  [C(X, P)] was decorated
    while [X] had no set, so its identity went into the set of [P], and
    [is_direct_dataclass(C)] is [True].  [dataclass(X)] then attaches a new
    set to [X], which comes before [P] in the resolution order of [C]:
    the set of [P] still holds the identity of [C], but [C] now resolves to
    the set of [X], and [is_direct_dataclass(C)] is [False]. *)
Theorem late_mixin_shadows_registry :
  let w' := (wrap process_in_place default_options 1 world_mixin).2 in
  mro (heap world_mixin) 3 = [3%positive; 1%positive; 2%positive] ∧
  getattr_declared (heap world_mixin) 3 = Some 1%positive ∧
  (is_direct_dataclass 3 world_mixin).1 = true ∧
  getattr_declared (heap w') 3 = Some 2%positive ∧
  set_mem (heap w') 1 3 = true ∧
  (is_direct_dataclass 3 w').1 = false.
Proof. repeat split; by vm_compute. Qed.

(** ** Further properties of the module *)

(** *** Helper lemmas *)

Lemma getattr_None_own h cls :
  getattr_declared h cls = None → own_declared h cls = None.
Proof.
  unfold getattr_declared, mro, own_declared.
  destruct (classes h !! cls) as [o|] eqn:Ho; [|done]. simpl.
  unfold own_declared. rewrite Ho. simpl. by destruct (declared o).
Qed.

Lemma lookup_mro_app h l1 l2 :
  lookup_mro h (l1 ++ l2) =
    match lookup_mro h l1 with
    | Some r => Some r
    | None => lookup_mro h l2
    end.
Proof.
  induction l1 as [|d l1 IH]; simpl; [done|].
  by destruct (own_declared h d).
Qed.

(** Writing the attribute changes no resolution order. *)
Lemma mro_setattr cls r h sets' y :
  mro (mkHeap (alter (λ o, mkClass (ancestors o) (Some r)) cls (classes h)) sets') y
  = mro h y.
Proof.
  unfold mro. simpl. destruct (decide (y = cls)) as [->|Hne].
  - rewrite lookup_alter_eq. by destruct (classes h !! cls).
  - by rewrite lookup_alter_ne.
Qed.


Lemma wrap_record_sets_dom cls h h2 :
  wrap_record cls h = Some h2 → dom (sets h) ⊆ dom (sets h2).
Proof.
  intros [[_ ->]|(r & _ & _ & ->)]%wrap_record_cases; simpl;
    rewrite dom_insert_L; set_solver.
Qed.

(** Lines 67-74 keep every class object, with its resolution order; an
    attribute is written only where there was none. *)
Lemma wrap_record_class cls h h2 d o :
  wrap_record cls h = Some h2 → classes h !! d = Some o →
  ∃ o', classes h2 !! d = Some o' ∧ ancestors o' = ancestors o ∧
        (declared o = None ∨ declared o' = declared o).
Proof.
  intros [[Hget ->]|(r & _ & _ & ->)]%wrap_record_cases Hd; simpl; [|eauto].
  destruct (decide (d = cls)) as [->|Hne].
  - rewrite lookup_alter_eq, Hd. simpl. eexists. split; [done|].
    split; [done|]. left.
    apply getattr_None_own in Hget. unfold own_declared in Hget.
    by rewrite Hd in Hget.
  - rewrite lookup_alter_ne by done. eauto.
Qed.

(** A class that resolves to a set when [wrap] reaches line 71 leaves every
    recorded class recorded. *)
Lemma wrap_record_direct_found cls h h2 c :
  is_Some (getattr_declared h cls) → wrap_record cls h = Some h2 →
  direct h c → direct h2 c.
Proof.
  intros [r0 Hfound] Hrec (r & Hget & Hin).
  destruct (wrap_record_cases _ _ _ Hrec) as [[Hnone _]|(r' & _ & _ & ->)];
    [congruence|].
  exists r. split; [by rewrite (getattr_same_classes h)|].
  by eapply wrap_record_grows.
Qed.

(** A class whose resolution order ends in that of [cls] and that is
    recorded does not resolve through [cls]: a set attached to [cls] comes
    after the one it finds. *)
Lemma wrap_record_direct_suffix cls h h2 c :
  cls ∈ dom (classes h) → NoDup (mro h c) →
  mro h cls `suffix_of` mro h c →
  getattr_declared h cls = None → wrap_record cls h = Some h2 →
  direct h c → direct h2 c.
Proof.
  intros Hcls Hnodup [k Hk] Hnone Hrec (r & Hget & Hin).
  assert (Hfresh : cls ∉ k).
  { rewrite Hk in Hnodup. apply NoDup_app in Hnodup as (_ & Hdisj & _).
    intros Hin'. by apply (Hdisj cls Hin'), mro_self. }
  assert (Hk_r : lookup_mro h k = Some r).
  { unfold getattr_declared in Hget, Hnone. rewrite Hk, lookup_mro_app in Hget.
    destruct (lookup_mro h k); [done|congruence]. }
  exists r. split; [|by eapply wrap_record_grows].
  destruct (wrap_record_cases _ _ _ Hrec) as [[_ ->]|(r' & Hsome & _)];
    [|congruence].
  unfold getattr_declared. rewrite mro_setattr, Hk, lookup_mro_app.
  rewrite (lookup_mro_ext h _ k), Hk_r; [done|].
  intros d Hd. unfold own_declared. simpl.
  rewrite lookup_alter_ne; [done|]. by intros ->.
Qed.

Section Further.

Variable P : Synthesizer.

Hypothesis frame : registry_frame P.

Lemma wrap_allocated o cls w d :
  d ∈ dom (classes (heap w)) → d ∈ dom (classes (heap (wrap P o cls w).2)).
Proof.
  intros Hd.
  destruct (wrap_cases P o cls w) as [[_ ->]|(h2 & Hrec & ->)]; simpl; [done|].
  apply frame_dom; [done|]. by rewrite (wrap_record_classes_dom cls (heap w)).
Qed.

Lemma step_sets_dom p w :
  dom (sets (heap w)) ⊆ dom (sets (heap (step P p w).2)).
Proof.
  destruct p as [bases|o cls|cls].
  - rewrite step_class_def. simpl. by rewrite class_def_sets.
  - destruct (decide (cls ∈ dom (classes (heap w)))).
    + rewrite step_decorate by done. simpl.
      destruct (wrap_cases P o cls w) as [[_ ->]|(h2 & Hrec & ->)]; simpl;
        [done|].
      rewrite frame_sets by done. by eapply wrap_record_sets_dom.
    + by rewrite step_unknown_class.
  - by rewrite step_is_direct.
Qed.

Lemma step_class p w d o :
  classes (heap w) !! d = Some o →
  ∃ o', classes (heap (step P p w).2) !! d = Some o' ∧
        ancestors o' = ancestors o ∧
        (declared o = None ∨ declared o' = declared o).
Proof.
  intros Hd. destruct p as [bases|op cls|cls].
  - rewrite step_class_def. simpl. exists o. split; [|eauto].
    destruct (class_def_cases bases (heap w)) as [(? & _ & _ & ->)|[? ->]];
      simpl; [|done].
    rewrite lookup_insert_ne; [done|]. intros <-.
    by rewrite fresh_class in Hd.
  - destruct (decide (cls ∈ dom (classes (heap w)))).
    + rewrite step_decorate by done. simpl.
      destruct (wrap_cases P op cls w) as [[_ ->]|(h2 & Hrec & ->)]; simpl;
        [eauto|].
      destruct (wrap_record_class _ _ _ _ _ Hrec Hd) as (o' & Ho' & Hkeep).
      exists o'. split; [|done].
      by apply (lookup_weaken _ _ _ _ Ho'), frame_classes.
    + rewrite step_unknown_class by done. eauto.
  - rewrite step_is_direct. eauto.
Qed.


End Further.

(** *** Properties *)

(** X1.  Importing the module on any interpreter version: the comparison
    [sys.version_info < (3, 10)] never raises, whatever [micro],
    [releaselevel] and [serial] are; the patch is installed exactly from
    version 3.10 on, every later version included.  When it is installed,
    [dataclass] and [dataclasses.dataclass] are the patched function,
    [is_direct_dataclass] is defined and nothing is warned; when it is not,
    both are the standard function, [is_direct_dataclass] is not defined and
    one warning is issued.  Either way exactly one line is printed, which
    says which. *)
Theorem patch_installed_from_3_10
    (major minor micro : Z) (releaselevel : string) (serial : Z) :
  let installed := ((3 <? major) || (major =? 3) && (10 <=? minor))%Z in
  import_module (version_info major minor micro releaselevel serial) =
    inr (mkModule installed
           (if installed then PatchedDataclass else StandardDataclass)
           installed
           (if installed then PatchedDataclass else StandardDataclass)
           (if installed then []
            else ["dataclass patch is not available for any version other than 3.10.0"])
           [if installed then "Dataclass patch is installed"
            else "Dataclass patch is not installed"]).
Proof.
  unfold import_module, version_info. cbn [tuple_lt py_eq py_lt].
  destruct (Z.eqb_spec major 3) as [->|Hmajor].
  - destruct (Z.eqb_spec minor 10) as [->|Hminor]; [done|].
    cbn [orb andb Z.ltb Z.compare Pos.compare Pos.compare_cont].
    destruct (Z.ltb_spec minor 10), (Z.leb_spec 10 minor); try lia; done.
  - rewrite andb_false_l, orb_false_r.
    destruct (Z.ltb_spec major 3), (Z.ltb_spec 3 major); try lia; done.
Qed.

(** X2.  [_process_class] is called exactly when [is_direct_dataclass]
    answers [False]: on a class for which it answers [True], [wrap] returns
    the class and leaves the world as it is; on any other class the log of
    synthesizer calls grows by one call, on that class, with the forwarded
    arguments. *)
Theorem synthesized_iff_not_direct
    (P : Synthesizer) (o : Options) (cls : ClassId) (w : World) :
  if (is_direct_dataclass cls w).1
  then wrap P o cls w = (Return cls, w)
  else calls (wrap P o cls w).2 = calls w ++ [(cls, process_args o)].
Proof.
  destruct (is_direct_dataclass cls w).1 eqn:Hd.
  - by apply wrap_early, is_direct_spec.
  - destruct (wrap_cases P o cls w) as [[Hdir _]|(h2 & _ & ->)]; [|done].
    apply is_direct_spec in Hdir. congruence.
Qed.

(** X3.  Once [wrap] has been through a class, every further call of
    [dataclass] on that class object, in either calling form and with any
    options, also options the synthesizer would refuse, returns the class
    and changes nothing: any run of such calls leaves the world, the log of
    synthesizer calls included, as it was. *)
Theorem repeated_calls_are_no_ops
    (P : Synthesizer) (o : Options) (cls : ClassId) (w : World)
    (os : list Options) :
  registry_frame P →
  heap_wf (heap w) →
  cls ∈ dom (classes (heap w)) →
  run P ((λ o', Decorate o' cls) <$> os) (wrap P o cls w).2
    = ((λ o', (Decorate o' cls, VClass cls)) <$> os, (wrap P o cls w).2) ∧
  Forall (λ o',
    (∃ d, dataclass P None o' = inl d ∧
          d cls (wrap P o cls w).2 = (Return cls, (wrap P o cls w).2)) ∧
    (∃ f, dataclass P (Some cls) o' = inr f ∧
          f (wrap P o cls w).2 = (Return cls, (wrap P o cls w).2))) os.
Proof.
  intros Hf Hwf Hcls. split.
  - induction os as [|o' os IH]; [done|].
    rewrite fmap_cons, run_cons, step_decorate by by apply wrap_allocated.
    rewrite wrap_again by done. simpl. by rewrite IH.
  - apply Forall_forall. intros o' _. split.
    + eexists. split; [done|]. by apply wrap_again.
    + eexists. split; [done|]. by apply wrap_again.
Qed.

Lemma repeated_calls_are_no_ops_witness :
  let w1 := (wrap process_checked default_options 1 world_one_class).2 in
  let os := [hash_without_eq; slots_options] in
  run process_checked ((λ o', Decorate o' 1) <$> os) w1
    = ((λ o', (Decorate o' 1, VClass 1)) <$> os, w1) ∧
  Forall (λ o',
    (∃ d, dataclass process_checked None o' = inl d ∧
          d 1%positive w1 = (Return 1%positive, w1)) ∧
    (∃ f, dataclass process_checked (Some 1%positive) o' = inr f ∧
          f w1 = (Return 1%positive, w1))) os.
Proof.
  intros w1 os.
  apply (repeated_calls_are_no_ops process_checked default_options 1
           world_one_class os).
  - apply process_checked_frame.
  - apply run_wf; [apply process_in_place_frame | apply empty_world_wf].
  - apply (bool_decide_unpack _). vm_compute. exact I.
Defined.

(** X4.  Under any program no set object goes away and no set object loses
    an element: the addresses in use only grow, and what a set held it
    still holds. *)
Theorem sets_never_shrink (P : Synthesizer) (prog : list op) (w : World) :
  registry_frame P →
  dom (sets (heap w)) ⊆ dom (sets (heap (run P prog w).2)) ∧
  ∀ r, set_contents (heap w) r ⊆ set_contents (heap (run P prog w).2) r.
Proof.
  intros Hf. split.
  - revert w. induction prog as [|p prog IH]; intros w; [done|].
    rewrite run_cons. simpl. etrans; [by apply step_sets_dom|apply IH].
  - intros r x Hx. by apply registry_only_grows.
Qed.

Lemma sets_never_shrink_witness :
  let prog := [Decorate slots_options 2; ClassDef [3%positive];
               Decorate default_options 4; Decorate hash_without_eq 1] in
  dom (sets (heap world_base_derived))
    ⊆ dom (sets (heap (run process_slots prog world_base_derived).2)) ∧
  ∀ r, set_contents (heap world_base_derived) r
       ⊆ set_contents (heap (run process_slots prog world_base_derived).2) r.
Proof.
  intros prog.
  apply (sets_never_shrink process_slots prog world_base_derived).
  apply process_slots_frame.
Defined.

(** X5.  Under any program a class object stays, its resolution order is
    never changed, and its own [__declared_dataclasses__], once it has one,
    stays bound to the same set object: the attribute is written only on a
    class that had none. *)
Theorem class_objects_stable
    (P : Synthesizer) (prog : list op) (w : World) (d : ClassId) (o : ClassObj) :
  registry_frame P →
  classes (heap w) !! d = Some o →
  ∃ o', classes (heap (run P prog w).2) !! d = Some o' ∧
        ancestors o' = ancestors o ∧
        (declared o = None ∨ declared o' = declared o).
Proof.
  intros Hf. revert w o. induction prog as [|p prog IH]; intros w o Hd.
  { exists o. eauto. }
  rewrite run_cons. simpl.
  destruct (step_class P Hf p w d o Hd) as (o1 & Ho1 & Hanc1 & Hdecl1).
  destruct (IH _ _ Ho1) as (o2 & Ho2 & Hanc2 & Hdecl2).
  exists o2. split; [done|]. split; [congruence|].
  destruct Hdecl1 as [?|Heq1]; [by left|].
  destruct Hdecl2 as [Hnone|Heq2]; [|right; congruence].
  left. congruence.
Qed.

Lemma class_objects_stable_witness :
  let prog := [Decorate slots_options 2; Decorate default_options 1;
               ClassDef [1%positive]; Decorate default_options 4] in
  ∃ o', classes (heap (run process_slots prog world_base_derived).2) !! 1%positive
          = Some o' ∧
        ancestors o' = ancestors (mkClass [] (Some 1%positive)) ∧
        (declared (mkClass [] (Some 1%positive)) = None ∨
         declared o' = declared (mkClass [] (Some 1%positive))).
Proof.
  intros prog.
  apply (class_objects_stable process_slots prog world_base_derived 1).
  - apply process_slots_frame.
  - vm_compute. reflexivity.
Defined.

Lemma collect_wf cls h : heap_wf h → heap_wf (collect cls h).
Proof.
  intros Hwf. unfold collect. case_bool_decide as Hleaf; [|done].
  split; simpl.
  - intros c o d [Hne Hc]%lookup_delete_Some Hd. rewrite dom_delete_L.
    apply elem_of_difference. split; [by eapply wf_ancestors|].
    intros ->%elem_of_singleton. by apply (Hleaf c o Hc).
  - intros c o r [Hne Hc]%lookup_delete_Some Hr. by eapply wf_declared.
Qed.

(** Well-formedness is kept also when classes are collected. *)
Lemma exec_wf P prog w :
  registry_frame P → heap_wf (heap w) → heap_wf (heap (exec P prog w)).
Proof.
  intros Hf. revert w.
  induction prog as [|[p|cls] prog IH]; intros w Hwf; simpl; [done|..].
  - by apply IH, step_wf.
  - by apply IH, collect_wf.
Qed.



(** X7.  A class [c] for which [is_direct_dataclass] answers [True] keeps
    that answer through a call of [dataclass] on a class [x] in each of
    these cases: [x] is not in the resolution order of [c]; [x] already
    resolves to a set; or the resolution order of [x] is the tail of that of
    [c], which covers [c] itself and, under single inheritance, every
    ancestor of [c]. *)
Theorem direct_preserved
    (P : Synthesizer) (o : Options) (x c : ClassId) (w : World) :
  registry_frame P →
  heap_wf (heap w) →
  x ∈ dom (classes (heap w)) →
  c ∈ dom (classes (heap w)) →
  NoDup (mro (heap w) c) →
  x ∉ mro (heap w) c
  ∨ is_Some (getattr_declared (heap w) x)
  ∨ mro (heap w) x `suffix_of` mro (heap w) c →
  (is_direct_dataclass c w).1 = true →
  (is_direct_dataclass c (wrap P o x w).2).1 = true.
Proof.
  intros Hf Hwf Hx Hc Hnodup Hcase. rewrite !is_direct_spec. intros Hdir.
  destruct (wrap_cases P o x w) as [[_ ->]|(h2 & Hrec & ->)]; simpl; [done|].
  apply (direct_frame h2).
  - by apply (wrap_record_wf x (heap w)).
  - by apply frame_classes.
  - by apply frame_sets.
  - by rewrite (wrap_record_classes_dom x (heap w)).
  - destruct Hcase as [Hout|[Hfound|Hsuffix]].
    + by apply (wrap_record_direct_other x (heap w) h2 c).
    + by apply (wrap_record_direct_found x (heap w)).
    + destruct (getattr_declared (heap w) x) as [r|] eqn:Hget.
      * apply (wrap_record_direct_found x (heap w)); [|done..].
        rewrite Hget. eauto.
      * by apply (wrap_record_direct_suffix x (heap w)).
Qed.

Lemma direct_preserved_witness :
  (is_direct_dataclass 2 world_derived_first).1 = true ∧
  (is_direct_dataclass 2
     (wrap process_in_place default_options 1 world_derived_first).2).1 = true.
Proof.
  split; [by vm_compute|].
  apply (direct_preserved process_in_place default_options 1 2
           world_derived_first).
  - apply process_in_place_frame.
  - apply run_wf; [apply process_in_place_frame | apply empty_world_wf].
  - apply (bool_decide_unpack _). vm_compute. exact I.
  - apply (bool_decide_unpack _). vm_compute. exact I.
  - apply (bool_decide_unpack _). vm_compute. exact I.
  - right. right. apply (bool_decide_unpack _). vm_compute. exact I.
  - vm_compute. reflexivity.
Defined.
